(** * nuxt-starter: image providers, content schema and server errors

    A shallow embedding of the executable parts of the starter:
    - the two GitHub-avatar image providers (the [defineProvider] one and
      the one that reads [options.baseURL]);
    - the [content] collection schema of [content.config.ts];
    - the named errors of [src/server/errors/index.ts].

    The providers call [joinURL] (package [ufo]), the schema is built from
    the [z] combinators (package [zod], re-exported by [@nuxt/content]) and
    the errors from [createError] (package [h3]).  None of the three is
    defined in the repository: the providers are stated over an arbitrary
    [joinURL], and the library functions are modelled in modules of their
    own ([Ufo], [Zod], [H3]). *)

From Stdlib Require Import Ascii String.
From stdpp Require Import base strings list gmap.

Open Scope string_scope.
#[local] Set Warnings "-register-all".

(** ** Data shared by the two providers *)

(** The [options] argument of a provider's [getImage]: the modifiers every
    provider receives and the provider's own options, of which only
    [baseURL] is ever read.  A missing property is [None]. *)
Record ImageOptions := {
  baseURL : option string;
  modifiers : gmap string string;
}.

(** What [getImage] returns. *)
Record ResolvedImage := {
  format : string;
  url : string;
}.

(** JavaScript truthiness of a value that is a string or [undefined]:
    [undefined] and the empty string are falsy. *)
Definition truthy (v : option string) : bool :=
  match v with
  | Some s => negb (String.eqb s "")
  | None => false
  end.

(** ** [ufo]: joining URL segments *)

Module Ufo.

(** [input.endsWith("/")] *)
Fixpoint endsWithSlash (input : string) : bool :=
  match input with
  | EmptyString => false
  | String c EmptyString => Ascii.eqb c "/"%char
  | String _ rest => endsWithSlash rest
  end.

(** [withTrailingSlash(input)], without the query-and-fragment mode. *)
Definition withTrailingSlash (input : string) : string :=
  if endsWithSlash input then input else input +:+ "/".

(** [segment.replace(/^\.?\//, "")]: one leading [/] or [./] is dropped. *)
Definition withoutJoinLeadingSlash (segment : string) : string :=
  match segment with
  | String "/"%char rest => rest
  | String "."%char (String "/"%char rest) => rest
  | _ => segment
  end.

(** [isNonEmptyURL(url)]: [url && url !== "/"]. *)
Definition isNonEmptyURL (url : string) : bool :=
  negb (String.eqb url "") && negb (String.eqb url "/").

(** One turn of the loop of [joinURL]. *)
Definition joinStep (url segment : string) : string :=
  if negb (String.eqb url "")
  then withTrailingSlash url +:+ withoutJoinLeadingSlash segment
  else segment.

(** Modelled from the spec: [joinURL(base, ...input)] is imported from the
    package [ufo] and its body is not part of the repository.  The spec
    asks for the standard URL path concatenation with no duplicate
    separators; this is the library's join: segments that are empty or
    ["/"] are skipped, and each remaining one is appended after exactly
    one slash, its own leading [/] or [./] removed. *)
Definition joinURL (base : string) (input : list string) : string :=
  foldl joinStep base (filter (λ s, isNonEmptyURL s = true) input).

End Ufo.

(** ** The provider built with [defineProvider] *)

Module DefineProvider.
Section with_join.
Variable joinURL : string → list string → string.

Definition DEFAULT_BASE_URL : string :=
  "https://avatars.githubusercontent.com/u/".

(** [getImage(src, { modifiers: _modifiers })]: only [modifiers] is taken
    out of the options, and it is not used. *)
Definition getImage (src : string) (options : ImageOptions) : ResolvedImage :=
  let _modifiers := modifiers options in
  {| format := "webp";
     url := joinURL DEFAULT_BASE_URL [src] |}.

End with_join.
End DefineProvider.

(** ** The provider that reads [options.baseURL] *)

Module OptionsProvider.
Section with_join.
Variable joinURL : string → list string → string.

(** [let { baseURL } = options; if (!baseURL) baseURL = '...'] followed by
    the return. *)
Definition getImage (src : string) (options : ImageOptions) : ResolvedImage :=
  let baseURL0 := baseURL options in
  let baseURL1 :=
    if negb (truthy baseURL0)
    then "https://avatars.githubusercontent.com/u/"
    else default "" baseURL0 in
  {| format := "webp";
     url := joinURL baseURL1 [src] |}.

End with_join.
End OptionsProvider.

(** ** [zod]: the schema combinators the content schema is built from *)

Module Zod.

(** A JavaScript value as a parsed front matter holds it.  Numbers are
    never inspected by the schema, only told apart from text, so an
    integer stands for them. *)
Inductive value :=
| VUndefined
| VNull
| VBoolean (b : bool)
| VNumber (n : Z)
| VString (s : string)
| VArray (items : list value)
| VObject (fields : list (string * value)).

Inductive ZodParsedType :=
| TString | TNumber | TBoolean | TUndefined | TNull | TArray | TObject.

Definition getParsedType (data : value) : ZodParsedType :=
  match data with
  | VUndefined => TUndefined
  | VNull => TNull
  | VBoolean _ => TBoolean
  | VNumber _ => TNumber
  | VString _ => TString
  | VArray _ => TArray
  | VObject _ => TObject
  end.

Definition typeName (t : ZodParsedType) : string :=
  match t with
  | TString => "string"
  | TNumber => "number"
  | TBoolean => "boolean"
  | TUndefined => "undefined"
  | TNull => "null"
  | TArray => "array"
  | TObject => "object"
  end.

(** A step of an issue's path: a property name or an array index. *)
Inductive PathSegment :=
| Key (k : string)
| Index (i : nat).

(** The only issue these combinators raise is [invalid_type]. *)
Record ZodIssue := {
  expected : ZodParsedType;
  received : ZodParsedType;
  path : list PathSegment;
  message : string;
}.

(** The default error map on an [invalid_type] issue. *)
Definition errorMessage (exp rec : ZodParsedType) : string :=
  match rec with
  | TUndefined => "Required"
  | _ => "Expected " +:+ typeName exp +:+ ", received " +:+ typeName rec
  end.

Definition invalid_type (exp : ZodParsedType) (data : value)
    (at_path : list PathSegment) : ZodIssue :=
  {| expected := exp;
     received := getParsedType data;
     path := at_path;
     message := errorMessage exp (getParsedType data) |}.

(** The schemas [z.string()], [z.array(element)] and [inner.optional()]. *)
Inductive ZodType :=
| ZodString
| ZodArray (element : ZodType)
| ZodOptional (inner : ZodType).

(** [ParseStatus.mergeArray]: one aborted element aborts the array. *)
Fixpoint mergeArray (results : list (option value)) : option (list value) :=
  match results with
  | [] => Some []
  | None :: _ => None
  | Some v :: rest =>
      match mergeArray rest with
      | Some vs => Some (v :: vs)
      | None => None
      end
  end.

(** Modelled from the spec: the [_parse] methods of the three schema
    classes belong to the package [zod], not to the repository.  The spec
    asks that a field be text, or a sequence of text, and may be absent
    where optional; this is the library's synchronous parse.  The result
    is the parsed value, [None] when the parse aborted, with the issues
    it added in order. *)
Fixpoint _parse (t : ZodType) (at_path : list PathSegment) (data : value)
    : option value * list ZodIssue :=
  match t with
  | ZodString =>
      match data with
      | VString _ => (Some data, [])
      | _ => (None, [invalid_type TString data at_path])
      end
  | ZodOptional inner =>
      match data with
      | VUndefined => (Some VUndefined, [])
      | _ => _parse inner at_path data
      end
  | ZodArray element =>
      match data with
      | VArray items =>
          let results :=
            imap (λ i item, _parse element (at_path ++ [Index i]) item) items in
          (VArray <$> mergeArray (fst <$> results), concat (snd <$> results))
      | _ => (None, [invalid_type TArray data at_path])
      end
  end.

(** A raw document and a parsed one: records keyed by property name. *)
Abbreviation record := (gmap string value).

(** What [ZodObject._parse] collects for each key of the shape. *)
Record Pair := {
  key : string;
  parsed : option value * list ZodIssue;
  alwaysSet : bool;
}.

(** [value = data[key]] is [undefined] for a missing key;
    [alwaysSet] is [key in data]. *)
Definition parsePairs (shape : list (string * ZodType)) (data : record)
    : list Pair :=
  (λ kt, {| key := kt.1;
            parsed := _parse kt.2 [Key kt.1] (default VUndefined (data !! kt.1));
            alwaysSet := bool_decide (is_Some (data !! kt.1)) |}) <$> shape.

Definition isUndefined (v : value) : bool :=
  match v with VUndefined => true | _ => false end.

(** [ParseStatus.mergeObjectSync]: an aborted property aborts the object;
    a property is written when its value is defined or its key was in the
    input. *)
Fixpoint mergeObjectSync (pairs : list Pair) (finalObject : record)
    : option record :=
  match pairs with
  | [] => Some finalObject
  | p :: rest =>
      match (parsed p).1 with
      | None => None
      | Some v =>
          mergeObjectSync rest
            (if negb (String.eqb (key p) "__proto__")
                && (negb (isUndefined v) || alwaysSet p)
             then <[key p := v]> finalObject
             else finalObject)
      end
  end.

(** The outcome of [safeParse]: the parsed data, or a [ZodError] with its
    issues. *)
Inductive SafeParseReturn :=
| Success (data : record)
| Failure (issues : list ZodIssue).

(** Modelled from the spec: [z.object(shape).safeParse(data)] on a record,
    with the default policy on unknown keys ([strip]): each key of the
    shape is parsed in the shape's order, and only those keys reach the
    result. *)
Definition safeParse (shape : list (string * ZodType)) (data : record)
    : SafeParseReturn :=
  let pairs := parsePairs shape data in
  match mergeObjectSync pairs ∅ with
  | Some finalObject => Success finalObject
  | None => Failure (concat ((λ p, (parsed p).2) <$> pairs))
  end.

End Zod.

(** ** [content.config.ts] *)

Module ContentConfig.
Import Zod.

(** The [schema] of the [content] collection, keys in the order written. *)
Definition schema : list (string * ZodType) :=
  [ ("description", ZodOptional ZodString);
    ("image", ZodOptional ZodString);
    ("tags", ZodOptional (ZodArray ZodString));
    ("title", ZodString) ].

Definition source : string := "**".
Definition type : string := "page".

(** Validation of a raw document against the collection's schema. *)
Definition validate (doc : gmap string value) : SafeParseReturn :=
  safeParse schema doc.

(** The shapes the schema asks of a document's fields, as predicates on
    what a lookup in the raw document gives. *)
Definition isText (v : value) : bool :=
  match v with VString _ => true | _ => false end.

(** An optional text field: absent, or text. *)
Definition optionalText (field : option value) : bool :=
  match field with
  | None => true
  | Some v => isText v
  end.

(** An optional sequence of text: absent, or an array of text. *)
Definition optionalTags (field : option value) : bool :=
  match field with
  | None => true
  | Some (VArray items) => forallb isText items
  | Some _ => false
  end.

(** The optional fields of a document are each absent or well shaped. *)
Definition optionalsWellShaped (doc : gmap string value) : bool :=
  optionalText (doc !! "description")
  && optionalText (doc !! "image")
  && optionalTags (doc !! "tags").

(** The four fields of the schema. *)
Definition schemaKeys : list string :=
  ["description"; "image"; "tags"; "title"].

End ContentConfig.

(** ** [h3]: error construction *)

Module H3.

(** The object literal handed to [createError]. *)
Record ErrorInput := {
  in_statusCode : Z;
  in_statusMessage : string;
}.

(** The fields of an [H3Error] a handler or the HTTP layer reads. *)
Record H3Error := {
  statusCode : Z;
  statusMessage : option string;
  message : string;
  fatal : bool;
  unhandled : bool;
}.

(** [sanitizeStatusCode(statusCode, defaultStatusCode)] on a number. *)
Definition sanitizeStatusCode (code defaultStatusCode : Z) : Z :=
  if (code =? 0)%Z then defaultStatusCode
  else if ((code <? 100) || (999 <? code))%Z then defaultStatusCode
  else code.

(** Modelled from the spec: [createError] is imported by the server
    runtime from the package [h3]; the repository only calls it.  The spec
    asks that an error pair a fixed status code with a fixed message; this
    is the library's constructor on an object with a [statusCode] and a
    [statusMessage]: the message of the error is the status message, the
    code is kept when it is a status code (100..999) and is the class's
    500 otherwise, an empty status message is left unset, and the error
    is neither fatal nor unhandled. *)
Definition createError (input : ErrorInput) : H3Error :=
  {| statusCode := sanitizeStatusCode (in_statusCode input) 500;
     statusMessage :=
       if String.eqb (in_statusMessage input) "" then None
       else Some (in_statusMessage input);
     message := in_statusMessage input;
     fatal := false;
     unhandled := false |}.

End H3.

(** ** [src/server/errors/index.ts] *)

Module Errors.
Import H3.

(** Throw when a resource is not found *)
Definition ErrNotFound : H3Error :=
  createError {| in_statusCode := 404; in_statusMessage := "Not found" |}.

(** Throw when access is denied *)
Definition ErrForbidden : H3Error :=
  createError {| in_statusCode := 403; in_statusMessage := "Forbidden" |}.

(** Throw when authentication is required *)
Definition ErrUnauthorized : H3Error :=
  createError {| in_statusCode := 401; in_statusMessage := "Unauthorized" |}.

(** Throw when request is malformed *)
Definition ErrBadRequest : H3Error :=
  createError {| in_statusCode := 400; in_statusMessage := "Bad request" |}.

(** Throw when HTTP method is not allowed *)
Definition ErrUnsupportedMethod : H3Error :=
  createError
    {| in_statusCode := 405; in_statusMessage := "Unsupported method" |}.

(** Throw when server encounters an error *)
Definition ErrInternalServer : H3Error :=
  createError
    {| in_statusCode := 500; in_statusMessage := "Internal server error" |}.

(** Throw when required ID parameter is missing *)
Definition ErrNoParamId : H3Error :=
  createError {| in_statusCode := 400; in_statusMessage := "No param id" |}.

(** The module's exports, by name, in the order of the file. *)
Definition exports : list (string * H3Error) :=
  [ ("ErrNotFound", ErrNotFound);
    ("ErrForbidden", ErrForbidden);
    ("ErrUnauthorized", ErrUnauthorized);
    ("ErrBadRequest", ErrBadRequest);
    ("ErrUnsupportedMethod", ErrUnsupportedMethod);
    ("ErrInternalServer", ErrInternalServer);
    ("ErrNoParamId", ErrNoParamId) ].

(** The pair a caller reads off an error. *)
Definition status (e : H3Error) : Z * option string :=
  (statusCode e, statusMessage e).

End Errors.

(** ** The plugin that registers the components *)

Module Plugin.
Section with_components.
(** A component is opaque here; the two imported ones are objects. *)
Variable Component : Type.
Variables NuxtLink NuxtImg : Component.

(** The components registered on the application, by name. *)
Abbreviation registry := (gmap string Component).

(** Modelled from the spec: [app.component(name, component)] belongs to the
    package [vue], not to the repository.  Called with a component it
    writes [context.components[name] = component], replacing what was
    registered under the name (the spec leaves a second registration open,
    last write wins being one of its two readings). *)
Definition component (name : string) (c : Component) (components : registry)
    : registry :=
  <[name := c]> components.

(** The function given to [defineNuxtPlugin], on the registry of
    [nuxtApp.vueApp]. *)
Definition plugin (components : registry) : registry :=
  let components := component "NuxtLink" NuxtLink components in
  component "NuxtImg" NuxtImg components.

End with_components.
End Plugin.

(** ** What the schema accepts *)

Module Accepts.
Import Zod ContentConfig.

(** A value an optional text field may hold: none (the key is missing or
    holds [undefined]) or text. *)
Definition acceptsText (field : option value) : bool :=
  match field with
  | None | Some VUndefined | Some (VString _) => true
  | Some _ => false
  end.

(** A value the optional [tags] may hold: none, or an array of text. *)
Definition acceptsTags (field : option value) : bool :=
  match field with
  | None | Some VUndefined => true
  | Some (VArray items) => forallb isText items
  | Some _ => false
  end.

(** The documents whose four fields have a shape the schema takes. *)
Definition accepted (doc : gmap string value) : bool :=
  acceptsText (doc !! "description")
  && acceptsText (doc !! "image")
  && acceptsTags (doc !! "tags")
  && isText (default VUndefined (doc !! "title")).

(** The value of an array is an array. *)
Definition isArray (v : value) : bool :=
  match v with VArray _ => true | _ => false end.

End Accepts.

(** [rest] is an end of [s]. *)
Definition isSuffixOf (rest s : string) : Prop :=
  ∃ front, s = front +:+ rest.

(** An identifier that the join does not skip, and what is left of it once
    one leading [/] or [./] is taken off: [src] is [/rest] (and not [/]
    alone), or [./rest], or it starts with neither and is [rest] itself. *)
Definition identifierRest (src rest : string) : Prop :=
  (src = "/" +:+ rest ∧ rest ≠ "")
  ∨ src = "./" +:+ rest
  ∨ (src = rest ∧ rest ≠ ""
     ∧ String.prefix "/" rest = false ∧ String.prefix "./" rest = false).

(** * Properties *)

(** ** The schema combinators *)

Section zod_facts.
Import Zod ContentConfig.

Lemma parse_string_text at_path v :
  isText v = true → _parse ZodString at_path v = (Some v, []).
Proof. by destruct v. Qed.

Lemma parse_string_not_text at_path v :
  isText v = false →
  _parse ZodString at_path v = (None, [invalid_type TString v at_path]).
Proof. by destruct v. Qed.

Lemma parse_items_text (f : nat → value → option value * list ZodIssue) items :
  (∀ i v, v ∈ items → f i v = (Some v, [])) →
  mergeArray (fst <$> imap f items) = Some items
  ∧ concat (snd <$> imap f items) = [].
Proof.
  revert f. induction items as [|v items IH]; intros f Hf; [done|].
  rewrite imap_cons, !fmap_cons, (Hf 0 v) by left. simpl.
  destruct (IH (f ∘ S)) as [-> ->]; [|done].
  intros i w Hw. apply Hf. by right.
Qed.

Lemma parse_array_unfold element at_path items :
  _parse (ZodArray element) at_path (VArray items)
  = (VArray <$> mergeArray
       (fst <$> imap (λ i item, _parse element (at_path ++ [Index i]) item) items),
     concat
       (snd <$> imap (λ i item, _parse element (at_path ++ [Index i]) item) items)).
Proof. reflexivity. Qed.

Lemma parse_array_text at_path items :
  forallb isText items = true →
  _parse (ZodArray ZodString) at_path (VArray items) = (Some (VArray items), []).
Proof.
  intros Hall. rewrite parse_array_unfold.
  destruct (parse_items_text
    (λ i item, _parse ZodString (at_path ++ [Index i]) item) items) as [-> ->]; [|done].
  intros i v Hv. apply parse_string_text.
  rewrite forallb_forall in Hall. apply Hall. by apply list_elem_of_In.
Qed.

Lemma parse_optional_text at_path field :
  optionalText field = true →
  _parse (ZodOptional ZodString) at_path (default VUndefined field)
  = (Some (default VUndefined field), []).
Proof. destruct field as [[]|]; done. Qed.

Lemma parse_optional_tags at_path field :
  optionalTags field = true →
  _parse (ZodOptional (ZodArray ZodString)) at_path (default VUndefined field)
  = (Some (default VUndefined field), []).
Proof.
  destruct field as [v|]; [|done].
  destruct v; try done. intros Hall. by apply parse_array_text.
Qed.

(** One aborted property aborts the object, whatever was merged so far. *)
Lemma mergeObjectSync_aborted pairs acc p :
  p ∈ pairs → (parsed p).1 = None → mergeObjectSync pairs acc = None.
Proof.
  intros Hin Hp. revert acc.
  induction pairs as [|q pairs IH]; intros acc; [by apply elem_of_nil in Hin|].
  apply elem_of_cons in Hin as [<-|Hin]; simpl.
  - by rewrite Hp.
  - destruct (parsed q).1; [by apply IH|done].
Qed.

Lemma elem_of_concat_issues {A} (x : A) (l : list A) (ls : list (list A)) :
  l ∈ ls → x ∈ l → x ∈ concat ls.
Proof.
  intros Hl Hx. apply list_elem_of_In, in_concat.
  exists l. by rewrite <-!list_elem_of_In.
Qed.

(** A key of the shape whose value does not parse makes [safeParse] fail,
    and the issues of that key are among the reported ones. *)
Lemma safeParse_failure shape (data : record) k t issues_k :
  (k, t) ∈ shape →
  _parse t [Key k] (default VUndefined (data !! k)) = (None, issues_k) →
  ∃ issues, safeParse shape data = Failure issues
            ∧ ∀ i, i ∈ issues_k → i ∈ issues.
Proof.
  intros Hin Hparse.
  set (p := {| key := k;
               parsed := _parse t [Key k] (default VUndefined (data !! k));
               alwaysSet := bool_decide (is_Some (data !! k)) |}).
  assert (Hp : p ∈ parsePairs shape data).
  { unfold parsePairs. apply list_elem_of_fmap. by exists (k, t). }
  unfold safeParse.
  rewrite (mergeObjectSync_aborted _ _ p Hp) by (simpl; by rewrite Hparse).
  eexists; split; [done|]. intros i Hi.
  apply (elem_of_concat_issues _ (parsed p).2).
  - apply list_elem_of_fmap. by exists p.
  - simpl. by rewrite Hparse.
Qed.

(** When every key of the shape parses to the value it was given, the
    merge keeps the accumulated properties and adds those keys of the
    shape that the input has. *)
Lemma mergeObjectSync_valid shape (data acc : record) :
  (∀ k t, (k, t) ∈ shape →
     k ≠ "__proto__"
     ∧ (_parse t [Key k] (default VUndefined (data !! k))).1
       = Some (default VUndefined (data !! k))) →
  acc ⊆ data →
  ∃ out, mergeObjectSync (parsePairs shape data) acc = Some out
         ∧ ∀ k, out !! k = if bool_decide (k ∈ shape.*1) then data !! k
                           else acc !! k.
Proof.
  revert acc. induction shape as [|[k0 t0] shape IH]; intros acc Hvalid Hsub.
  { exists acc. split; [done|]. intros k. rewrite bool_decide_eq_false_2; [done|].
    apply not_elem_of_nil. }
  destruct (Hvalid k0 t0) as [Hproto Hparse]; [left|].
  simpl. rewrite Hparse.
  rewrite (proj2 (String.eqb_neq _ _) Hproto). simpl.
  set (v0 := default VUndefined (data !! k0)).
  set (acc1 := if negb (isUndefined v0) || bool_decide (is_Some (data !! k0))
               then <[k0:=v0]> acc else acc).
  assert (Hacc1 : ∀ k, acc1 !! k = if decide (k = k0) then data !! k else acc !! k).
  { intros k. unfold acc1, v0. destruct (data !! k0) as [w0|] eqn:Hk0; simpl.
    - rewrite orb_true_r.
      destruct (decide (k = k0)) as [->|Hne].
      + by rewrite lookup_insert_eq.
      + by rewrite lookup_insert_ne.
    - destruct (decide (k = k0)) as [->|Hne]; [|done].
      rewrite Hk0. destruct (acc !! k0) as [w|] eqn:Hw; [|done].
      eapply lookup_weaken in Hw; [|exact Hsub]. congruence. }
  destruct (IH acc1) as (out & Hout & Hlook).
  { intros k t Hin. apply Hvalid. by right. }
  { apply map_subseteq_spec. intros k v. rewrite Hacc1.
    destruct (decide (k = k0)); [done|]. intros Hk.
    by eapply lookup_weaken in Hk. }
  exists out. split; [done|]. intros k. rewrite Hlook, Hacc1.
  destruct (decide (k = k0)) as [->|Hne].
  - rewrite (bool_decide_eq_true_2 (k0 ∈ k0 :: _)) by left.
    by case_bool_decide.
  - do 2 case_bool_decide; try done; exfalso.
    + match goal with H : ¬ _ |- _ => apply H end. by right.
    + match goal with H : _ ∈ _ :: _ |- _ =>
        apply elem_of_cons in H as [?|?] end; done.
Qed.

End zod_facts.

(** ** The content schema *)

Section content_schema.
Import Zod ContentConfig.

Lemma schema_keys : schema.*1 = schemaKeys.
Proof. reflexivity. Qed.

(** Membership of a key in one of the fixed lists of field names. *)
Local Ltac field_name :=
  unfold schemaKeys in *; rewrite ?list_elem_of_In in *; simpl in *;
  intuition congruence.

(** A document with a text title and well-shaped optional fields is
    accepted, and the result is the document cut down to the schema's
    keys. *)
Lemma validate_valid (doc : record) :
  isText (default VUndefined (doc !! "title")) = true →
  optionalsWellShaped doc = true →
  ∃ out, validate doc = Success out
         ∧ ∀ k, out !! k = if bool_decide (k ∈ schemaKeys) then doc !! k
                           else None.
Proof.
  intros Htitle Hopt. unfold optionalsWellShaped in Hopt.
  apply andb_true_iff in Hopt as [Hopt Htags].
  apply andb_true_iff in Hopt as [Hdesc Himage].
  destruct (mergeObjectSync_valid schema doc ∅) as (out & Hout & Hlook).
  - intros k t Hin. unfold schema in Hin.
    repeat (apply elem_of_cons in Hin as [[= -> ->]|Hin]);
      [| | | |by apply elem_of_nil in Hin]; (split; [done|]).
    + by rewrite parse_optional_text.
    + by rewrite parse_optional_text.
    + by rewrite parse_optional_tags.
    + by rewrite parse_string_text.
  - apply map_empty_subseteq.
  - exists out. unfold validate, safeParse. rewrite Hout. split; [done|].
    intros k. rewrite Hlook, schema_keys. by rewrite lookup_empty.
Qed.

(** A document whose title is absent or is not text is refused, with the
    issue the title's schema raised. *)
Lemma validate_title_issue (doc : record) :
  isText (default VUndefined (doc !! "title")) = false →
  ∃ issues, validate doc = Failure issues
            ∧ invalid_type TString (default VUndefined (doc !! "title"))
                [Key "title"] ∈ issues.
Proof.
  intros Htitle.
  destruct (safeParse_failure schema doc "title" ZodString
              [invalid_type TString (default VUndefined (doc !! "title"))
                 [Key "title"]])
    as (issues & Hfail & Hin).
  - unfold schema. do 3 right. left.
  - by apply parse_string_not_text.
  - exists issues. split; [done|]. apply Hin. left.
Qed.

Example validate_hello :
  validate {[ "title" := VString "Hello" ]}
  = Success {[ "title" := VString "Hello" ]}.
Proof. vm_compute. reflexivity. Qed.

Example validate_no_title :
  validate {[ "description" := VString "x" ]}
  = Failure [ {| expected := TString; received := TUndefined;
                 path := [Key "title"]; message := "Required" |} ].
Proof. vm_compute. reflexivity. Qed.

Example validate_bad_tag :
  validate (<[ "tags" := VArray [VString "a"; VNumber 3] ]>
              {[ "title" := VString "Hello" ]})
  = Failure [ {| expected := TString; received := TNumber;
                 path := [Key "tags"; Index 1];
                 message := "Expected string, received number" |} ].
Proof. vm_compute. reflexivity. Qed.

(** C3.  Every raw document in which [title] is absent fails validation,
    whatever its other fields are, and the error carries an issue whose
    path is the field [title] (a string was expected, nothing was
    received: ["Required"]). *)
Theorem validate_rejects_missing_title (doc : record) :
  doc !! "title" = None →
  ∃ issues, validate doc = Failure issues
            ∧ {| expected := TString; received := TUndefined;
                 path := [Key "title"]; message := "Required" |} ∈ issues.
Proof.
  intros Hnone. destruct (validate_title_issue doc) as (issues & Hfail & Hin).
  - by rewrite Hnone.
  - rewrite Hnone in Hin. by exists issues.
Qed.

Lemma validate_rejects_missing_title_witness :
  ∃ issues, validate {[ "description" := VString "x" ]} = Failure issues
            ∧ {| expected := TString; received := TUndefined;
                 path := [Key "title"]; message := "Required" |} ∈ issues.
Proof.
  apply (validate_rejects_missing_title {[ "description" := VString "x" ]}).
  reflexivity.
Defined.

(** C6.  Every document whose [title] is text and whose optional fields
    [description], [image] and [tags] are each absent or of the right
    shape is accepted; the result has the title, each optional field is in
    the result exactly as it is in the document, and so an absent one is
    absent from the result. *)
Theorem validate_accepts_titled_document (doc : record) (t : string) :
  doc !! "title" = Some (VString t) →
  optionalsWellShaped doc = true →
  ∃ out, validate doc = Success out
         ∧ out !! "title" = Some (VString t)
         ∧ (∀ k, k ∈ ["description"; "image"; "tags"] → out !! k = doc !! k)
         ∧ (∀ k, k ∈ ["description"; "image"; "tags"] →
              doc !! k = None → out !! k = None).
Proof.
  intros Htitle Hopt.
  destruct (validate_valid doc) as (out & Hok & Hlook); [by rewrite Htitle|done|].
  assert (Hsame : ∀ k, k ∈ ["description"; "image"; "tags"] → out !! k = doc !! k).
  { intros k Hk. rewrite Hlook, bool_decide_eq_true_2; [done|]. field_name. }
  exists out. split; [done|]. split; [|split; [done|]].
  - rewrite Hlook. by rewrite bool_decide_eq_true_2 by field_name.
  - intros k Hk Hnone. by rewrite Hsame.
Qed.

Lemma validate_accepts_titled_document_witness :
  ∃ out, validate {[ "title" := VString "Hello" ]} = Success out
         ∧ out !! "title" = Some (VString "Hello")
         ∧ (∀ k, k ∈ ["description"; "image"; "tags"] →
              out !! k = ({[ "title" := VString "Hello" ]} : record) !! k)
         ∧ (∀ k, k ∈ ["description"; "image"; "tags"] →
              ({[ "title" := VString "Hello" ]} : record) !! k = None →
              out !! k = None).
Proof.
  apply (validate_accepts_titled_document {[ "title" := VString "Hello" ]} "Hello");
    reflexivity.
Defined.

(** C7, as the code has it.  The schema asks that [title] be present and
    be text, and nothing about its length: a document whose title is the
    empty string, with optional fields absent or well shaped, is accepted
    with that empty title; a document whose title is not text is refused
    with an issue at [title]. *)
Theorem validate_title_text_required_empty_allowed (doc : record) :
  (doc !! "title" = Some (VString "") →
   optionalsWellShaped doc = true →
   ∃ out, validate doc = Success out ∧ out !! "title" = Some (VString ""))
  ∧ ((∀ t, doc !! "title" ≠ Some (VString t)) →
     ∃ issues, validate doc = Failure issues
               ∧ ∃ i, i ∈ issues ∧ path i = [Key "title"]
                      ∧ expected i = TString).
Proof.
  split.
  - intros Htitle Hopt.
    destruct (validate_valid doc) as (out & Hok & Hlook); [by rewrite Htitle|done|].
    exists out. split; [done|]. rewrite Hlook, <-Htitle.
    by rewrite bool_decide_eq_true_2 by field_name.
  - intros Hnot.
    destruct (validate_title_issue doc) as (issues & Hfail & Hin).
    + destruct (doc !! "title") as [[]|]; try done. by edestruct Hnot.
    + exists issues. split; [done|]. by eexists.
Qed.

Lemma validate_title_text_required_empty_allowed_witness :
  (∃ out, validate {[ "title" := VString "" ]} = Success out
          ∧ out !! "title" = Some (VString ""))
  ∧ (∃ issues, validate {[ "title" := VNumber 7 ]} = Failure issues
               ∧ ∃ i, i ∈ issues ∧ path i = [Key "title"]
                      ∧ expected i = TString).
Proof.
  split.
  - apply (proj1 (validate_title_text_required_empty_allowed
                    {[ "title" := VString "" ]})); reflexivity.
  - apply (proj2 (validate_title_text_required_empty_allowed
                    {[ "title" := VNumber 7 ]})).
    intros t. vm_compute. discriminate.
Defined.

(** C7, as stated, fails: the document whose only field is an empty
    [title] is accepted, not refused. *)
Lemma validate_accepts_empty_title :
  validate {[ "title" := VString "" ]} = Success {[ "title" := VString "" ]}
  ∧ ¬ ∃ issues, validate {[ "title" := VString "" ]} = Failure issues.
Proof.
  split; [vm_compute; reflexivity|].
  intros [issues Hfail]. vm_compute in Hfail. discriminate.
Qed.

(** C10.  Every document with a text [title] and any further fields the
    schema does not know (its optional fields absent or well shaped) is
    accepted, and the result holds the fields of the schema and only them:
    the title is there, each of [title], [description], [image] and [tags]
    is in the result as it is in the document, and no other key is in the
    result.  An unknown key is dropped, neither kept nor a reason to
    refuse. *)
Theorem validate_strips_unknown_keys (doc : record) (t : string) :
  doc !! "title" = Some (VString t) →
  optionalsWellShaped doc = true →
  ∃ out, validate doc = Success out
         ∧ out !! "title" = Some (VString t)
         ∧ (∀ k, k ∈ ["title"; "description"; "image"; "tags"] →
              out !! k = doc !! k)
         ∧ (∀ k, k ∉ ["title"; "description"; "image"; "tags"] →
              out !! k = None)
         ∧ (∀ k, is_Some (out !! k) →
              k ∈ ["title"; "description"; "image"; "tags"]).
Proof.
  intros Htitle Hopt.
  destruct (validate_valid doc) as (out & Hok & Hlook); [by rewrite Htitle|done|].
  assert (Hknown : ∀ k, k ∈ ["title"; "description"; "image"; "tags"] →
                        out !! k = doc !! k).
  { intros k Hk. rewrite Hlook, bool_decide_eq_true_2; [done|]. field_name. }
  assert (Hunknown : ∀ k, k ∉ ["title"; "description"; "image"; "tags"] →
                          out !! k = None).
  { intros k Hk. rewrite Hlook, bool_decide_eq_false_2; [done|]. field_name. }
  exists out. split; [done|]. split; [|split; [done|split; [done|]]].
  - rewrite Hknown, Htitle; [done|left].
  - intros k Hsome.
    destruct (decide (k ∈ ["title"; "description"; "image"; "tags"])) as [|Hk];
      [done|].
    rewrite (Hunknown k Hk) in Hsome. by destruct Hsome.
Qed.

Lemma validate_strips_unknown_keys_witness :
  ∃ out, validate (<[ "layout" := VString "wide" ]>
                     (<[ "draft" := VBoolean true ]>
                        {[ "title" := VString "Hello" ]})) = Success out
         ∧ out !! "title" = Some (VString "Hello")
         ∧ (∀ k, k ∈ ["title"; "description"; "image"; "tags"] →
              out !! k
              = (<[ "layout" := VString "wide" ]>
                   (<[ "draft" := VBoolean true ]>
                      ({[ "title" := VString "Hello" ]} : record))) !! k)
         ∧ (∀ k, k ∉ ["title"; "description"; "image"; "tags"] →
              out !! k = None)
         ∧ (∀ k, is_Some (out !! k) →
              k ∈ ["title"; "description"; "image"; "tags"]).
Proof.
  apply (validate_strips_unknown_keys
           (<[ "layout" := VString "wide" ]>
              (<[ "draft" := VBoolean true ]> {[ "title" := VString "Hello" ]}))
           "Hello"); reflexivity.
Defined.

Example validate_strips_layout :
  validate (<[ "layout" := VString "wide" ]> {[ "title" := VString "Hello" ]})
  = Success {[ "title" := VString "Hello" ]}.
Proof. vm_compute. reflexivity. Qed.

End content_schema.

(** ** Joining with [ufo] *)

Section ufo_facts.
Import Ufo.

Lemma append_cons c (s t : string) : String c s +:+ t = String c (s +:+ t).
Proof. reflexivity. Qed.

Lemma append_empty_r (s : string) : s +:+ "" = s.
Proof. induction s as [|c s IH]; [done|by rewrite append_cons, IH]. Qed.

Lemma append_assoc (s1 s2 s3 : string) :
  (s1 +:+ s2) +:+ s3 = s1 +:+ (s2 +:+ s3).
Proof. induction s1 as [|c s1 IH]; [done|by rewrite !append_cons, IH]. Qed.

Lemma isSuffixOf_refl s : isSuffixOf s s.
Proof. by exists "". Qed.

Lemma isSuffixOf_empty s : isSuffixOf "" s.
Proof. exists s. by rewrite append_empty_r. Qed.

(** The leading [/] or [./] is the only thing removed from a segment. *)
Lemma withoutJoinLeadingSlash_suffix segment :
  isSuffixOf (withoutJoinLeadingSlash segment) segment.
Proof.
  destruct segment as [|c rest]; [apply isSuffixOf_refl|].
  destruct (decide (c = "/"%char)) as [->|Hslash]; [by exists "/"|].
  destruct (decide (c = "."%char)) as [->|Hdot].
  - destruct rest as [|c' rest']; [apply isSuffixOf_refl|].
    destruct (decide (c' = "/"%char)) as [->|Hslash']; [by exists "./"|].
    replace (withoutJoinLeadingSlash (String "." (String c' rest')))
      with (String "." (String c' rest')); [apply isSuffixOf_refl|].
    destruct c' as [[] [] [] [] [] [] [] []]; done.
  - replace (withoutJoinLeadingSlash (String c rest)) with (String c rest);
      [apply isSuffixOf_refl|].
    destruct c as [[] [] [] [] [] [] [] []]; done.
Qed.

(** The join of a base and one segment. *)
Lemma joinURL_single base segment :
  joinURL base [segment]
  = if isNonEmptyURL segment then joinStep base segment else base.
Proof.
  unfold joinURL. rewrite filter_cons, filter_nil.
  destruct (isNonEmptyURL segment); by case_decide.
Qed.

(** Joining a segment to a base that is not empty writes the base, at most
    one slash, and an end of the segment; no slash when the base already
    ends with one. *)
Lemma joinURL_separator base segment :
  base ≠ "" →
  ∃ sep rest,
    (sep = "" ∨ sep = "/")
    ∧ (endsWithSlash base = true → sep = "")
    ∧ isSuffixOf rest segment
    ∧ joinURL base [segment] = base +:+ sep +:+ rest.
Proof.
  intros Hbase. rewrite joinURL_single.
  destruct (isNonEmptyURL segment).
  - unfold joinStep. rewrite (proj2 (String.eqb_neq _ _) Hbase). simpl.
    unfold withTrailingSlash. destruct (endsWithSlash base) eqn:Hends.
    + exists "", (withoutJoinLeadingSlash segment).
      split; [by left|]. split; [done|].
      split; [apply withoutJoinLeadingSlash_suffix|done].
    + exists "/", (withoutJoinLeadingSlash segment).
      split; [by right|]. split; [done|].
      split; [apply withoutJoinLeadingSlash_suffix|apply append_assoc].
  - exists "", "". split; [by left|]. split; [done|].
    split; [apply isSuffixOf_empty|]. simpl. by rewrite append_empty_r.
Qed.

Example joinURL_default_octocat :
  joinURL DefineProvider.DEFAULT_BASE_URL ["octocat"]
  = "https://avatars.githubusercontent.com/u/octocat".
Proof. reflexivity. Qed.

Example joinURL_adds_slash :
  joinURL "https://cdn.example.com/imgs" ["/octocat"]
  = "https://cdn.example.com/imgs/octocat".
Proof. reflexivity. Qed.

Example joinURL_skips_empty :
  joinURL "https://cdn.example.com/imgs" [""] = "https://cdn.example.com/imgs".
Proof. reflexivity. Qed.

Lemma isNonEmptyURL_true segment :
  segment ≠ "" → segment ≠ "/" → isNonEmptyURL segment = true.
Proof.
  intros H1 H2. unfold isNonEmptyURL.
  by rewrite (proj2 (String.eqb_neq _ _) H1), (proj2 (String.eqb_neq _ _) H2).
Qed.

(** Joining a segment that is not skipped to a base that is not empty. *)
Lemma joinURL_kept base segment :
  base ≠ "" → segment ≠ "" → segment ≠ "/" →
  joinURL base [segment]
  = withTrailingSlash base +:+ withoutJoinLeadingSlash segment.
Proof.
  intros Hbase H1 H2. rewrite joinURL_single, isNonEmptyURL_true by done.
  unfold joinStep. by rewrite (proj2 (String.eqb_neq _ _) Hbase).
Qed.

Lemma joinURL_skipped base segment :
  segment = "" ∨ segment = "/" → joinURL base [segment] = base.
Proof. by intros [-> | ->]. Qed.

Lemma endsWithSlash_append_slash base : endsWithSlash (base +:+ "/") = true.
Proof.
  induction base as [|c base IH]; [done|].
  rewrite append_cons. destruct base as [|c' base]; [done|].
  by rewrite append_cons in *.
Qed.

(** A string ends with a slash exactly when it is some string followed by
    one. *)
Lemma endsWithSlash_inv base :
  endsWithSlash base = true → ∃ front, base = front +:+ "/".
Proof.
  induction base as [|c base IH]; [done|].
  destruct base as [|c' base].
  - simpl. intros Hc. apply Ascii.eqb_eq in Hc as ->. by exists "".
  - intros Hends. destruct IH as [front Hfront]; [done|].
    exists (String c front). by rewrite append_cons, <-Hfront.
Qed.

Lemma withTrailingSlash_slash front :
  withTrailingSlash (front +:+ "/") = front +:+ "/".
Proof. unfold withTrailingSlash. by rewrite endsWithSlash_append_slash. Qed.

Lemma withTrailingSlash_no_slash base :
  (∀ front, base ≠ front +:+ "/") → withTrailingSlash base = base +:+ "/".
Proof.
  intros Hno. unfold withTrailingSlash.
  destruct (endsWithSlash base) eqn:Hends; [|done].
  apply endsWithSlash_inv in Hends as [front ->]. by destruct (Hno front).
Qed.

Lemma prefix_cons a b (s1 s2 : string) :
  String.prefix (String a s1) (String b s2)
  = if Ascii.ascii_dec a b then String.prefix s1 s2 else false.
Proof. reflexivity. Qed.

Lemma prefix_slash_false c rest :
  String.prefix "/" (String c rest) = false → c ≠ "/"%char.
Proof. intros Hp ->. simpl in Hp. by destruct rest. Qed.

Lemma prefix_dot_slash_false c rest :
  String.prefix "./" (String "." (String c rest)) = false → c ≠ "/"%char.
Proof. intros Hp ->. simpl in Hp. by destruct rest. Qed.

(** An identifier of one of the three shapes is kept by the join, and the
    join takes its leading [/] or [./] off. *)
Lemma identifierRest_kept src rest :
  identifierRest src rest →
  src ≠ "" ∧ src ≠ "/" ∧ withoutJoinLeadingSlash src = rest.
Proof.
  intros [[-> Hne]|[->|(-> & Hne & Hslash & Hdot)]].
  - split; [done|]. split; [|done]. by destruct rest.
  - done.
  - split; [done|]. destruct rest as [|c rest]; [done|].
    apply prefix_slash_false in Hslash.
    split; [by intros [= ->]|].
    destruct (decide (c = "."%char)) as [->|Hc].
    + destruct rest as [|c' rest]; [done|].
      apply prefix_dot_slash_false in Hdot.
      destruct c' as [[] [] [] [] [] [] [] []]; done.
    + destruct c as [[] [] [] [] [] [] [] []]; done.
Qed.

(** Every identifier is skipped by the join or has one of the three
    shapes. *)
Lemma identifier_cases src :
  src = "" ∨ src = "/" ∨ ∃ rest, identifierRest src rest.
Proof.
  destruct src as [|c src]; [by left|]. right.
  destruct (decide (c = "/"%char)) as [->|Hslash].
  { destruct src as [|c' src]; [by left|]. right.
    exists (String c' src). by left. }
  right. destruct (decide (c = "."%char)) as [->|Hdot].
  - destruct src as [|c' src].
    { exists ".". by do 2 right. }
    destruct (decide (c' = "/"%char)) as [->|Hslash'].
    { exists src. right. by left. }
    exists (String "." (String c' src)). do 2 right.
    split; [done|]. split; [done|]. split; [done|].
    rewrite !prefix_cons.
    destruct (Ascii.ascii_dec "." "."); [|done].
    by destruct (Ascii.ascii_dec "/" c').
  - exists (String c src). do 2 right.
    split; [done|]. split; [done|]. split.
    + rewrite prefix_cons. by destruct (Ascii.ascii_dec "/" c).
    + rewrite prefix_cons. by destruct (Ascii.ascii_dec "." c).
Qed.

(** What the join writes for a base that is not empty: the base, a slash
    unless the base ends with one, and the rest of the identifier. *)
Lemma joinURL_shape base src rest :
  base ≠ "" → identifierRest src rest →
  (∀ front, base = front +:+ "/" → joinURL base [src] = base +:+ rest)
  ∧ ((∀ front, base ≠ front +:+ "/") →
     joinURL base [src] = base +:+ "/" +:+ rest).
Proof.
  intros Hbase (Hne & Hslash & Hrest)%identifierRest_kept.
  rewrite joinURL_kept, Hrest by done. split.
  - intros front ->. by rewrite withTrailingSlash_slash.
  - intros Hno. by rewrite withTrailingSlash_no_slash, append_assoc.
Qed.

(** Slashes doubled in an input stay: only one is taken off the
    identifier. *)
Example joinURL_keeps_double_slash :
  joinURL "https://cdn.example.com/imgs" ["//octocat"]
  = "https://cdn.example.com/imgs//octocat".
Proof. reflexivity. Qed.

End ufo_facts.

(** ** The image providers *)

Section providers.
Import Ufo.

Example defineProvider_octocat :
  DefineProvider.getImage joinURL "octocat" {| baseURL := None; modifiers := ∅ |}
  = {| format := "webp";
       url := "https://avatars.githubusercontent.com/u/octocat" |}.
Proof. reflexivity. Qed.

Example optionsProvider_octocat :
  OptionsProvider.getImage joinURL "octocat" {| baseURL := None; modifiers := ∅ |}
  = {| format := "webp";
       url := "https://avatars.githubusercontent.com/u/octocat" |}.
Proof. reflexivity. Qed.

Example optionsProvider_octocat_cdn :
  OptionsProvider.getImage joinURL "octocat"
    {| baseURL := Some "https://cdn.example.com/imgs/"; modifiers := ∅ |}
  = {| format := "webp"; url := "https://cdn.example.com/imgs/octocat" |}.
Proof. reflexivity. Qed.

(** What the options provider joins the identifier to. *)
Lemma optionsProvider_url (join : string → list string → string) src options :
  url (OptionsProvider.getImage join src options)
  = join (match baseURL options with
          | Some b =>
              if decide (b = "") then DefineProvider.DEFAULT_BASE_URL else b
          | None => DefineProvider.DEFAULT_BASE_URL
          end) [src].
Proof.
  unfold OptionsProvider.getImage, truthy. simpl.
  destruct (baseURL options) as [b|]; [|done]. simpl.
  case_decide as Hb; [by subst b|].
  by rewrite (proj2 (String.eqb_neq _ _) Hb).
Qed.

(** C1, as stated, fails for the provider built with [defineProvider]: it
    is handed an override and still answers with the default base. *)
Lemma defineProvider_ignores_override :
  url (DefineProvider.getImage joinURL "octocat"
         {| baseURL := Some "https://cdn.example.com/imgs/"; modifiers := ∅ |})
  = "https://avatars.githubusercontent.com/u/octocat"
  ∧ url (DefineProvider.getImage joinURL "octocat"
           {| baseURL := Some "https://cdn.example.com/imgs/"; modifiers := ∅ |})
    ≠ joinURL "https://cdn.example.com/imgs/" ["octocat"].
Proof. split; [reflexivity|]. vm_compute. discriminate. Qed.

(** C1, as the code has it.  Whatever joins the segments: the provider
    that reads [options.baseURL] builds the url from a supplied override
    that is not empty, joined with the identifier, and from the fixed
    default base when none is supplied; the provider built with
    [defineProvider] builds it from the fixed default base whatever the
    options hold. *)
Theorem providers_base_url_choice
    (join : string → list string → string) (src : string)
    (mods : gmap string string) :
  (∀ b, b ≠ "" →
     url (OptionsProvider.getImage join src
            {| baseURL := Some b; modifiers := mods |}) = join b [src])
  ∧ url (OptionsProvider.getImage join src
           {| baseURL := None; modifiers := mods |})
    = join "https://avatars.githubusercontent.com/u/" [src]
  ∧ (∀ override,
       url (DefineProvider.getImage join src
              {| baseURL := override; modifiers := mods |})
       = join "https://avatars.githubusercontent.com/u/" [src]).
Proof.
  split; [|split]; [|done..].
  intros b Hb. rewrite optionsProvider_url. simpl. by rewrite decide_False.
Qed.

Lemma providers_base_url_choice_witness :
  url (OptionsProvider.getImage joinURL "octocat"
         {| baseURL := Some "https://cdn.example.com/imgs/"; modifiers := ∅ |})
  = joinURL "https://cdn.example.com/imgs/" ["octocat"].
Proof.
  apply (proj1 (providers_base_url_choice joinURL "octocat" ∅)
           "https://cdn.example.com/imgs/").
  discriminate.
Defined.

(** C4, as stated, fails at the empty override: the url is the join with
    the default base, not the join of the empty base and the identifier. *)
Lemma optionsProvider_empty_override_uses_default :
  url (OptionsProvider.getImage joinURL "octocat"
         {| baseURL := Some ""; modifiers := ∅ |})
  = "https://avatars.githubusercontent.com/u/octocat"
  ∧ joinURL "" ["octocat"] = "octocat"
  ∧ url (OptionsProvider.getImage joinURL "octocat"
           {| baseURL := Some ""; modifiers := ∅ |})
    ≠ joinURL "" ["octocat"].
Proof. split; [reflexivity|]. split; [reflexivity|]. vm_compute. discriminate. Qed.

(** C4, as the code has it.  For every identifier and every override that
    is not the empty string the url is the join of the override and the
    identifier; with no override, or with the empty string as override,
    it is the join of the fixed default base and the identifier.  The join
    is the base alone when the identifier is empty or a single slash;
    otherwise it is the base, then one slash only when the base does not
    already end with one, then the identifier with one leading [/] or [./]
    taken off.  Every identifier falls under one of the two cases.  So the
    join adds at most one separator, and none next to a slash the base ends
    with; it removes nothing else, and a slash doubled in the identifier
    stays. *)
Theorem optionsProvider_url_is_join (src : string) (mods : gmap string string) :
  (∀ b, b ≠ "" →
     url (OptionsProvider.getImage joinURL src
            {| baseURL := Some b; modifiers := mods |}) = joinURL b [src])
  ∧ (∀ override, override = None ∨ override = Some "" →
       url (OptionsProvider.getImage joinURL src
              {| baseURL := override; modifiers := mods |})
       = joinURL "https://avatars.githubusercontent.com/u/" [src])
  ∧ (src = "" ∨ src = "/" →
       (∀ b, b ≠ "" →
          url (OptionsProvider.getImage joinURL src
                 {| baseURL := Some b; modifiers := mods |}) = b)
       ∧ (∀ override, override = None ∨ override = Some "" →
            url (OptionsProvider.getImage joinURL src
                   {| baseURL := override; modifiers := mods |})
            = "https://avatars.githubusercontent.com/u/"))
  ∧ (∀ rest, identifierRest src rest →
       (∀ front,
          url (OptionsProvider.getImage joinURL src
                 {| baseURL := Some (front +:+ "/"); modifiers := mods |})
          = front +:+ "/" +:+ rest)
       ∧ (∀ b, b ≠ "" → (∀ front, b ≠ front +:+ "/") →
            url (OptionsProvider.getImage joinURL src
                   {| baseURL := Some b; modifiers := mods |})
            = b +:+ "/" +:+ rest)
       ∧ (∀ override, override = None ∨ override = Some "" →
            url (OptionsProvider.getImage joinURL src
                   {| baseURL := override; modifiers := mods |})
            = "https://avatars.githubusercontent.com/u/" +:+ rest))
  ∧ (src = "" ∨ src = "/" ∨ ∃ rest, identifierRest src rest).
Proof.
  assert (Hsome : ∀ b, b ≠ "" →
            url (OptionsProvider.getImage joinURL src
                   {| baseURL := Some b; modifiers := mods |}) = joinURL b [src]).
  { intros b Hb. rewrite optionsProvider_url. simpl. by rewrite decide_False. }
  assert (Hnone : ∀ override, override = None ∨ override = Some "" →
            url (OptionsProvider.getImage joinURL src
                   {| baseURL := override; modifiers := mods |})
            = joinURL "https://avatars.githubusercontent.com/u/" [src]).
  { by intros override [->| ->]. }
  split; [done|]. split; [done|]. split; [|split].
  - intros Hskip. split.
    + intros b Hb. by rewrite Hsome, joinURL_skipped.
    + intros override Hover. by rewrite Hnone, joinURL_skipped.
  - intros rest Hrest. split; [|split].
    + intros front. assert (front +:+ "/" ≠ "") by (by destruct front).
      rewrite Hsome by done.
      rewrite (proj1 (joinURL_shape (front +:+ "/") src rest ltac:(done) Hrest) front)
        by done.
      apply append_assoc.
    + intros b Hb Hno. rewrite Hsome by done.
      by apply (proj2 (joinURL_shape b src rest Hb Hrest)).
    + intros override Hover. rewrite Hnone by done.
      by apply (proj1 (joinURL_shape "https://avatars.githubusercontent.com/u/"
                         src rest ltac:(done) Hrest)
                  "https://avatars.githubusercontent.com/u").
  - apply identifier_cases.
Qed.

Lemma optionsProvider_url_is_join_witness :
  url (OptionsProvider.getImage joinURL "/octocat"
         {| baseURL := Some "https://cdn.example.com/imgs"; modifiers := ∅ |})
  = "https://cdn.example.com/imgs" +:+ "/" +:+ "octocat"
  ∧ url (OptionsProvider.getImage joinURL "/octocat"
           {| baseURL := Some ""; modifiers := ∅ |})
    = "https://avatars.githubusercontent.com/u/" +:+ "octocat"
  ∧ url (OptionsProvider.getImage joinURL ""
           {| baseURL := Some "https://cdn.example.com/imgs"; modifiers := ∅ |})
    = "https://cdn.example.com/imgs".
Proof.
  assert (Hrest : identifierRest "/octocat" "octocat") by (by left).
  split; [|split].
  - apply (proj1 (proj2 (proj1 (proj2 (proj2 (proj2
             (optionsProvider_url_is_join "/octocat" ∅)))) "octocat" Hrest))).
    + discriminate.
    + intros front Hfront.
      pose proof (endsWithSlash_append_slash front) as Hends.
      rewrite <-Hfront in Hends. discriminate Hends.
  - apply (proj2 (proj2 (proj1 (proj2 (proj2 (proj2
             (optionsProvider_url_is_join "/octocat" ∅)))) "octocat" Hrest))).
    right. reflexivity.
  - apply (proj1 (proj1 (proj2 (proj2
             (optionsProvider_url_is_join "" ∅))) (or_introl eq_refl))).
    discriminate.
Defined.

(** C5.  For every identifier, the empty one included, and every options
    value, both providers answer with the format ["webp"]. *)
Theorem getImage_format_webp
    (join : string → list string → string) (src : string)
    (options : ImageOptions) :
  format (DefineProvider.getImage join src options) = "webp"
  ∧ format (OptionsProvider.getImage join src options) = "webp".
Proof. split; reflexivity. Qed.

End providers.

(** ** The error registry *)

(** C2.  The module exports exactly seven errors, built when the module is
    loaded, and their status codes and status messages are the seven pairs
    below. *)
Theorem exports_status_table :
  (λ named, (named.1, Errors.status named.2)) <$> Errors.exports
  = [ ("ErrNotFound", (404%Z, Some "Not found"));
      ("ErrForbidden", (403%Z, Some "Forbidden"));
      ("ErrUnauthorized", (401%Z, Some "Unauthorized"));
      ("ErrBadRequest", (400%Z, Some "Bad request"));
      ("ErrUnsupportedMethod", (405%Z, Some "Unsupported method"));
      ("ErrInternalServer", (500%Z, Some "Internal server error"));
      ("ErrNoParamId", (400%Z, Some "No param id")) ]
  ∧ length Errors.exports = 7
  ∧ NoDup Errors.exports.*1.
Proof.
  split; [reflexivity|]. split; [reflexivity|].
  apply (bool_decide_unpack _). by vm_compute.
Qed.

(** * Further properties *)

(** ** Parsing, field by field *)

Section parse_facts.
Import Zod ContentConfig Accepts.

(** What a parse returns on success is the value it was given. *)
Lemma mergeArray_same (f : nat → value → option value * list ZodIssue) items vs :
  (∀ i v v', v ∈ items → (f i v).1 = Some v' → v' = v) →
  mergeArray (fst <$> imap f items) = Some vs → vs = items.
Proof.
  revert f vs. induction items as [|v items IH]; intros f vs Hf.
  { by intros [= <-]. }
  rewrite imap_cons, fmap_cons. cbn [mergeArray].
  destruct (f 0 v).1 as [v'|] eqn:Hv; [|done].
  destruct (mergeArray _) as [vs'|] eqn:Hrest; [|done]. intros [= <-].
  rewrite (Hf 0 v v') by (done || left).
  f_equal. apply (IH (f ∘ S)); [|done].
  intros i w w' Hw. apply Hf. by right.
Qed.

Lemma parse_same t at_path v v' :
  (_parse t at_path v).1 = Some v' → v' = v.
Proof.
  revert at_path v v'. induction t as [|element IH|inner IH]; intros at_path v v'.
  - destruct v; simpl; congruence.
  - destruct v; try (simpl; congruence).
    rewrite parse_array_unfold. cbn [fst].
    destruct (mergeArray _) as [vs|] eqn:Hmerge; [|done]. intros [= <-].
    f_equal. eapply mergeArray_same; [|exact Hmerge].
    intros i w w' _. apply IH.
  - destruct v; simpl; try apply IH. congruence.
Qed.

(** An aborted parse has raised an issue. *)
Lemma mergeArray_aborted_issue
    (f : nat → value → option value * list ZodIssue) items :
  (∀ i v, (f i v).1 = None → (f i v).2 ≠ []) →
  mergeArray (fst <$> imap f items) = None →
  concat (snd <$> imap f items) ≠ [].
Proof.
  revert f. induction items as [|v items IH]; intros f Hf; [done|].
  rewrite imap_cons, !fmap_cons. cbn [mergeArray concat].
  destruct (f 0 v).1 eqn:Hv.
  - destruct (mergeArray _) eqn:Hrest; [done|]. intros _ Hnil.
    apply app_eq_nil in Hnil as [_ Hnil].
    by apply (IH (f ∘ S)) in Hnil; [|intros i w; apply Hf|].
  - intros _ Hnil. apply app_eq_nil in Hnil as [Hnil _]. by apply Hf in Hv.
Qed.

Lemma parse_aborted_issue t at_path v :
  (_parse t at_path v).1 = None → (_parse t at_path v).2 ≠ [].
Proof.
  revert at_path v. induction t as [|element IH|inner IH]; intros at_path v.
  - by destruct v.
  - destruct v; try done.
    rewrite parse_array_unfold. cbn [fst snd]. intros Hnone.
    apply mergeArray_aborted_issue; [intros i w; apply IH|].
    by destruct (mergeArray _).
  - destruct v; simpl; try apply IH. done.
Qed.

(** The issues of the elements of an array, by index. *)
Lemma elem_of_concat_imap {A B} (f : nat → A → list B) (items : list A) (x : B) :
  x ∈ concat (imap f items) ↔ ∃ i v, items !! i = Some v ∧ x ∈ f i v.
Proof.
  revert f. induction items as [|v items IH]; intros f.
  { split; [by intros ?%elem_of_nil|by intros (i & w & ? & _)]. }
  rewrite imap_cons. cbn [concat]. rewrite elem_of_app, IH. split.
  - intros [Hx|(i & w & Hi & Hx)]; [by exists 0, v|by exists (S i), w].
  - intros (i & w & Hi & Hx). destruct i as [|i].
    + left. by injection Hi as ->.
    + right. by exists i, w.
Qed.

Lemma parse_array_issues element at_path items (x : ZodIssue) :
  x ∈ (_parse (ZodArray element) at_path (VArray items)).2
  ↔ ∃ i v, items !! i = Some v
           ∧ x ∈ (_parse element (at_path ++ [Index i]) v).2.
Proof.
  rewrite parse_array_unfold. cbn [snd].
  rewrite <-(elem_of_concat_imap
    (λ i item, (_parse element (at_path ++ [Index i]) item).2)).
  by rewrite fmap_imap.
Qed.

(** One element that does not parse aborts the array. *)
Lemma mergeArray_element_aborted
    (f : nat → value → option value * list ZodIssue) items i v :
  items !! i = Some v → (f i v).1 = None →
  mergeArray (fst <$> imap f items) = None.
Proof.
  revert f i. induction items as [|w items IH]; intros f i Hi Hv; [done|].
  rewrite imap_cons, fmap_cons. cbn [mergeArray]. destruct i as [|i].
  - injection Hi as ->. by rewrite Hv.
  - destruct (f 0 w).1; [|done]. by rewrite (IH (f ∘ S) i).
Qed.

(** Every issue lies at, or below, the path the parse was started at. *)
Lemma parse_issue_path t at_path v (x : ZodIssue) :
  x ∈ (_parse t at_path v).2 → ∃ below, path x = (at_path ++ below)%list.
Proof.
  revert at_path v. induction t as [|element IH|inner IH]; intros at_path v.
  - destruct v; simpl; rewrite ?elem_of_nil, ?list_elem_of_singleton;
      try done; intros ->; exists []; by rewrite app_nil_r.
  - destruct v; try (simpl; rewrite list_elem_of_singleton;
                     intros ->; exists []; by rewrite app_nil_r).
    rewrite parse_array_issues. intros (i & w & _ & Hx).
    apply IH in Hx as [below ->]. exists (Index i :: below).
    by rewrite <-app_assoc.
  - destruct v; simpl; try apply IH. by intros ?%elem_of_nil.
Qed.

End parse_facts.

(** ** The content schema, further *)

Section schema_more.
Import Zod ContentConfig Accepts.

Local Ltac field_name :=
  unfold schemaKeys in *; rewrite ?list_elem_of_In in *; simpl in *;
  intuition congruence.

(** The pair [ZodObject._parse] builds for a key of the shape. *)
Lemma parsePairs_elem shape (data : record) k t :
  (k, t) ∈ shape →
  {| key := k;
     parsed := _parse t [Key k] (default VUndefined (data !! k));
     alwaysSet := bool_decide (is_Some (data !! k)) |} ∈ parsePairs shape data.
Proof. intros Hin. unfold parsePairs. apply list_elem_of_fmap. by exists (k, t). Qed.

Lemma parsePairs_elem_inv shape (data : record) p :
  p ∈ parsePairs shape data →
  ∃ k t, (k, t) ∈ shape
         ∧ parsed p = _parse t [Key k] (default VUndefined (data !! k)).
Proof.
  unfold parsePairs. intros ([k t] & -> & Hin)%list_elem_of_fmap. by exists k, t.
Qed.

Lemma mergeObjectSync_none pairs acc :
  mergeObjectSync pairs acc = None → ∃ p, p ∈ pairs ∧ (parsed p).1 = None.
Proof.
  revert acc. induction pairs as [|q pairs IH]; intros acc; [done|].
  simpl. destruct (parsed q).1 eqn:Hq.
  - intros (p & Hin & Hp)%IH. exists p. split; [by right|done].
  - intros _. exists q. split; [left|done].
Qed.

(** In an accepted document every field of the schema parsed to itself. *)
Lemma validate_success_fields (doc out : record) k t :
  validate doc = Success out → (k, t) ∈ schema →
  (_parse t [Key k] (default VUndefined (doc !! k))).1
  = Some (default VUndefined (doc !! k)).
Proof.
  unfold validate, safeParse. intros Hok Hin.
  destruct (mergeObjectSync _ _) eqn:Hmerge; [|done].
  destruct (_parse t [Key k] (default VUndefined (doc !! k))).1 as [v|] eqn:Hv.
  - by rewrite (parse_same _ _ _ _ Hv).
  - by rewrite (mergeObjectSync_aborted _ _ _ (parsePairs_elem schema doc k t Hin))
      in Hmerge.
Qed.

Lemma schema_no_proto k t : (k, t) ∈ schema → k ≠ "__proto__".
Proof.
  unfold schema. intros Hin.
  repeat (apply elem_of_cons in Hin as [[= -> ->]|Hin]); try done.
  by apply elem_of_nil in Hin.
Qed.

(** The result of an accepted document, key by key. *)
Lemma validate_success_lookup (doc out : record) :
  validate doc = Success out →
  ∀ k, out !! k = if bool_decide (k ∈ schemaKeys) then doc !! k else None.
Proof.
  intros Hok.
  destruct (mergeObjectSync_valid schema doc ∅) as (out' & Hout & Hlook).
  - intros k t Hin. split; [by eapply schema_no_proto|].
    by eapply validate_success_fields.
  - apply map_empty_subseteq.
  - unfold validate, safeParse in Hok. rewrite Hout in Hok. injection Hok as <-.
    intros k. by rewrite Hlook, schema_keys, lookup_empty.
Qed.

(** Validation reads the four fields of the schema and nothing else. *)
Lemma validate_agree (doc1 doc2 : record) :
  (∀ k, k ∈ schemaKeys → doc1 !! k = doc2 !! k) →
  validate doc1 = validate doc2.
Proof.
  intros Hsame. unfold validate, safeParse.
  assert (parsePairs schema doc1 = parsePairs schema doc2) as ->; [|done].
  unfold parsePairs, schema. cbn [fmap list_fmap fst snd].
  by rewrite !(Hsame "description"), !(Hsame "image"), !(Hsame "tags"),
    !(Hsame "title") by field_name.
Qed.

(** X1.  A field the schema does not know has no part in the outcome:
    adding it, with any value, or removing it gives the same result, the
    same parsed document or the same issues. *)
Theorem validate_ignores_unknown_key (doc : record) (k : string) (v : value) :
  k ∉ schemaKeys →
  validate (<[k := v]> doc) = validate doc
  ∧ validate (delete k doc) = validate doc.
Proof.
  intros Hk. split; apply validate_agree; intros k' Hk'.
  - apply lookup_insert_ne. by intros ->.
  - apply lookup_delete_ne. by intros ->.
Qed.

Lemma validate_ignores_unknown_key_witness :
  validate (<[ "layout" := VNumber 3 ]> {[ "description" := VNull ]})
  = validate {[ "description" := VNull ]}
  ∧ validate (delete "layout" ({[ "description" := VNull ]} : record))
    = validate {[ "description" := VNull ]}.
Proof.
  apply (validate_ignores_unknown_key {[ "description" := VNull ]} "layout").
  apply (bool_decide_unpack _). by vm_compute.
Defined.

(** X2.  The parsed document is the raw one cut down to the four fields of
    the schema: the values of those fields are handed back as they came. *)
Theorem validate_success_is_restriction (doc out : record) :
  validate doc = Success out →
  out = filter (λ kv, kv.1 ∈ schemaKeys) doc.
Proof.
  intros Hok. apply map_eq. intros k.
  rewrite (validate_success_lookup doc out Hok). apply option_eq. intros v.
  rewrite map_lookup_filter_Some. simpl. case_bool_decide as Hk.
  - split; [by intros ?; split|by intros [? _]].
  - split; [done|by intros [_ ?]].
Qed.

Lemma validate_success_is_restriction_witness :
  ({[ "title" := VString "Hello" ]} : record)
  = filter (λ kv, kv.1 ∈ schemaKeys)
      (<[ "layout" := VString "wide" ]> {[ "title" := VString "Hello" ]}).
Proof.
  apply (validate_success_is_restriction
           (<[ "layout" := VString "wide" ]> {[ "title" := VString "Hello" ]})).
  vm_compute. reflexivity.
Defined.

(** What each field of the schema takes. *)
Lemma parse_text_field_accepts at_path field :
  is_Some (_parse (ZodOptional ZodString) at_path (default VUndefined field)).1
  ↔ acceptsText field = true.
Proof.
  destruct field as [[]|]; simpl; split; try done; by intros [? ?].
Qed.

Lemma mergeArray_text (f : nat → value → option value * list ZodIssue) items :
  (∀ i v, is_Some (f i v).1 → isText v = true) →
  is_Some (mergeArray (fst <$> imap f items)) → forallb isText items = true.
Proof.
  revert f. induction items as [|v items IH]; intros f Hf; [done|].
  rewrite imap_cons, fmap_cons. cbn [mergeArray forallb].
  destruct (f 0 v).1 eqn:Hv; [|by intros [? ?]].
  rewrite (Hf 0 v) by (by rewrite Hv). simpl.
  destruct (mergeArray _) eqn:Hrest; [|by intros [? ?]]. intros _.
  apply (IH (f ∘ S)); [intros i w; apply Hf|by rewrite Hrest].
Qed.

Lemma parse_optional_array t at_path items :
  _parse (ZodOptional t) at_path (VArray items) = _parse t at_path (VArray items).
Proof. reflexivity. Qed.

Lemma parse_tags_field_accepts at_path field :
  is_Some (_parse (ZodOptional (ZodArray ZodString)) at_path
             (default VUndefined field)).1
  ↔ acceptsTags field = true.
Proof.
  split.
  - destruct field as [v|]; [|done].
    destruct v; try done; try by intros [? ?].
    cbv [default from_option id acceptsTags]. rewrite parse_optional_array.
    rewrite parse_array_unfold. cbn [fst]. intros Hsome.
    eapply mergeArray_text; [|by eapply fmap_is_Some].
    intros i w. by destruct w; intros [? ?].
  - destruct field as [v|]; [|done]. destruct v; try done.
    cbv [default from_option id acceptsTags]. intros Hall.
    by rewrite parse_optional_array, parse_array_text.
Qed.

Lemma parse_title_field_accepts at_path v :
  is_Some (_parse ZodString at_path v).1 ↔ isText v = true.
Proof. destruct v; simpl; split; try done; by intros [? ?]. Qed.

(** X3.  The documents validation accepts are exactly those whose [title]
    is text, whose [description] and [image] are each missing, [undefined]
    or text, and whose [tags] is missing, [undefined] or an array of text
    (the empty array included).  [null], a number, or an array with one
    element that is not text, is refused. *)
Theorem validate_success_iff (doc : record) :
  (∃ out, validate doc = Success out) ↔ accepted doc = true.
Proof.
  unfold accepted. rewrite !andb_true_iff.
  rewrite <-(parse_text_field_accepts [Key "description"] (doc !! "description")),
    <-(parse_text_field_accepts [Key "image"] (doc !! "image")),
    <-(parse_tags_field_accepts [Key "tags"]),
    <-(parse_title_field_accepts [Key "title"]).
  split.
  - intros [out Hok].
    repeat split;
      (erewrite (validate_success_fields doc out _ _ Hok); [by eexists|]);
      unfold schema; rewrite !elem_of_cons; auto 6.
  - intros [[[Hdesc Himage] Htags] Htitle].
    destruct (mergeObjectSync_valid schema doc ∅) as (out & Hout & _).
    + intros k t Hin. split; [by eapply schema_no_proto|].
      unfold schema in Hin.
      repeat (apply elem_of_cons in Hin as [[= -> ->]|Hin]);
        [| | | |by apply elem_of_nil in Hin];
        match goal with
        | H : is_Some ?o |- ?o = _ =>
            destruct H as [v Hv]; rewrite Hv; f_equal; by eapply parse_same
        end.
    + apply map_empty_subseteq.
    + exists out. unfold validate, safeParse. by rewrite Hout.
Qed.

(** X4.  Validation is idempotent: a parsed document validates, and parses
    to itself. *)
Theorem validate_idempotent (doc out : record) :
  validate doc = Success out → validate out = Success out.
Proof.
  intros Hok. etrans; [|exact Hok]. apply validate_agree. intros k Hk.
  rewrite (validate_success_lookup doc out Hok).
  by rewrite bool_decide_eq_true_2.
Qed.

Lemma validate_idempotent_witness :
  validate (<[ "tags" := VArray [VString "a"] ]> {[ "title" := VString "Hello" ]})
  = Success (<[ "tags" := VArray [VString "a"] ]> {[ "title" := VString "Hello" ]}).
Proof.
  apply (validate_idempotent
           (<[ "draft" := VBoolean true ]>
              (<[ "tags" := VArray [VString "a"] ]>
                 {[ "title" := VString "Hello" ]}))).
  vm_compute. reflexivity.
Defined.

(** X5.  A refusal is never empty and never vague: the error holds at
    least one issue, and the path of every issue starts with one of the
    four fields of the schema. *)
Theorem validate_failure_issues (doc : record) (issues : list ZodIssue) :
  validate doc = Failure issues →
  issues ≠ []
  ∧ ∀ i, i ∈ issues → ∃ k below, k ∈ schemaKeys ∧ path i = Key k :: below.
Proof.
  intros Hfail. unfold validate, safeParse in Hfail. cbv zeta in Hfail.
  assert (Hinv : ∀ p, p ∈ parsePairs schema doc →
            ∃ k t, (k, t) ∈ schema
                   ∧ parsed p = _parse t [Key k] (default VUndefined (doc !! k)))
    by apply parsePairs_elem_inv.
  remember (parsePairs schema doc) as pairs eqn:Hpairs. clear Hpairs.
  destruct (mergeObjectSync pairs ∅) eqn:Hmerge; [done|]. injection Hfail as <-.
  split.
  - apply mergeObjectSync_none in Hmerge as (p & Hin & Hp).
    destruct (Hinv p Hin) as (k & t & _ & Hparsed).
    rewrite Hparsed in Hp. apply parse_aborted_issue in Hp.
    rewrite <-Hparsed in Hp. intros Hnil.
    destruct (parsed p).2 as [|x xs] eqn:Hx; [done|].
    assert (Hmem : x ∈ concat ((λ p, (parsed p).2) <$> pairs)).
    { apply (elem_of_concat_issues _ (parsed p).2).
      - apply list_elem_of_fmap. by exists p.
      - rewrite Hx. left. }
    rewrite Hnil in Hmem. by apply elem_of_nil in Hmem.
  - intros i Hi. apply list_elem_of_In, in_concat in Hi as (l & Hl & Hi).
    apply list_elem_of_In, list_elem_of_fmap in Hl as (p & -> & Hp).
    destruct (Hinv p Hp) as (k & t & Hkt & Hparsed).
    rewrite Hparsed in Hi. apply list_elem_of_In, parse_issue_path in Hi as [below Hpath].
    exists k, below. split; [|done].
    rewrite <-schema_keys. apply list_elem_of_fmap. by exists (k, t).
Qed.

Lemma validate_failure_issues_witness :
  [ {| expected := TString; received := TNull;
       path := [Key "description"];
       message := "Expected string, received null" |};
    {| expected := TString; received := TUndefined;
       path := [Key "title"]; message := "Required" |} ] ≠ []
  ∧ ∀ i,
      i ∈ [ {| expected := TString; received := TNull;
               path := [Key "description"];
               message := "Expected string, received null" |};
            {| expected := TString; received := TUndefined;
               path := [Key "title"]; message := "Required" |} ] →
      ∃ k below, k ∈ schemaKeys ∧ path i = Key k :: below.
Proof.
  apply (validate_failure_issues {[ "description" := VNull ]}).
  vm_compute. reflexivity.
Defined.

(** X6.  Optional does not mean nullable: a [description] or an [image]
    that is present with a value that is neither text nor [undefined]
    ([null], a number, a list, ...) makes validation fail, with an issue at
    that field saying that a string was expected and what was received. *)
Theorem validate_rejects_bad_text_field (doc : record) (k : string) (v : value) :
  k ∈ ["description"; "image"] →
  doc !! k = Some v →
  acceptsText (Some v) = false →
  ∃ issues, validate doc = Failure issues
            ∧ {| expected := TString; received := getParsedType v;
                 path := [Key k];
                 message := errorMessage TString (getParsedType v) |} ∈ issues.
Proof.
  intros Hk Hv Hbad.
  destruct (safeParse_failure schema doc k (ZodOptional ZodString)
              [invalid_type TString v [Key k]]) as (issues & Hfail & Hin).
  - unfold schema. apply elem_of_cons in Hk as [->|Hk]; [left|].
    apply list_elem_of_singleton in Hk as ->. right. left.
  - rewrite Hv. by destruct v.
  - exists issues. split; [done|]. apply Hin. left.
Qed.

Lemma validate_rejects_bad_text_field_witness :
  ∃ issues,
    validate (<[ "description" := VNull ]> {[ "title" := VString "Hello" ]})
    = Failure issues
    ∧ {| expected := TString; received := TNull;
         path := [Key "description"];
         message := "Expected string, received null" |} ∈ issues.
Proof.
  apply (validate_rejects_bad_text_field
           (<[ "description" := VNull ]> {[ "title" := VString "Hello" ]})
           "description" VNull); [|reflexivity..].
  left.
Defined.

(** X7.  A [tags] that is present and is neither an array nor [undefined]
    (a single text, for one) makes validation fail, with an issue at [tags]
    saying that an array was expected. *)
Theorem validate_rejects_tags_not_array (doc : record) (v : value) :
  doc !! "tags" = Some v →
  isArray v = false →
  v ≠ VUndefined →
  ∃ issues, validate doc = Failure issues
            ∧ {| expected := TArray; received := getParsedType v;
                 path := [Key "tags"];
                 message := errorMessage TArray (getParsedType v) |} ∈ issues.
Proof.
  intros Hv Hbad Hdef.
  destruct (safeParse_failure schema doc "tags" (ZodOptional (ZodArray ZodString))
              [invalid_type TArray v [Key "tags"]]) as (issues & Hfail & Hin).
  - unfold schema. do 2 right. left.
  - rewrite Hv. by destruct v.
  - exists issues. split; [done|]. apply Hin. left.
Qed.

Lemma validate_rejects_tags_not_array_witness :
  ∃ issues,
    validate (<[ "tags" := VString "news" ]> {[ "title" := VString "Hello" ]})
    = Failure issues
    ∧ {| expected := TArray; received := TString;
         path := [Key "tags"];
         message := "Expected array, received string" |} ∈ issues.
Proof.
  apply (validate_rejects_tags_not_array
           (<[ "tags" := VString "news" ]> {[ "title" := VString "Hello" ]})
           (VString "news")); [reflexivity..|discriminate].
Defined.

(** X8.  One element of [tags] that is not text makes validation fail, and
    the issue points at that element: its path is [tags] followed by the
    index of the element.  Every such element gets its issue. *)
Theorem validate_rejects_bad_tag (doc : record) (items : list value)
    (i : nat) (w : value) :
  doc !! "tags" = Some (VArray items) →
  items !! i = Some w →
  isText w = false →
  ∃ issues, validate doc = Failure issues
            ∧ {| expected := TString; received := getParsedType w;
                 path := [Key "tags"; Index i];
                 message := errorMessage TString (getParsedType w) |} ∈ issues.
Proof.
  intros Htags Hi Hbad.
  set (r := _parse (ZodOptional (ZodArray ZodString)) [Key "tags"] (VArray items)).
  destruct (safeParse_failure schema doc "tags" (ZodOptional (ZodArray ZodString))
              r.2) as (issues & Hfail & Hin).
  - unfold schema. do 2 right. left.
  - rewrite Htags. cbv [default from_option id]. fold r.
    assert (r.1 = None) as Hnone; [|by destruct r as [? ?]; simpl in *; subst].
    unfold r. rewrite parse_optional_array, parse_array_unfold. cbn [fst].
    by rewrite (mergeArray_element_aborted _ items i w Hi)
      by (by rewrite parse_string_not_text).
  - exists issues. split; [done|]. apply Hin. unfold r.
    rewrite parse_optional_array. apply parse_array_issues.
    exists i, w. split; [done|]. rewrite parse_string_not_text by done. left.
Qed.

Lemma validate_rejects_bad_tag_witness :
  ∃ issues,
    validate (<[ "tags" := VArray [VString "a"; VNumber 3] ]>
                {[ "title" := VString "Hello" ]})
    = Failure issues
    ∧ {| expected := TString; received := TNumber;
         path := [Key "tags"; Index 1];
         message := "Expected string, received number" |} ∈ issues.
Proof.
  apply (validate_rejects_bad_tag
           (<[ "tags" := VArray [VString "a"; VNumber 3] ]>
              {[ "title" := VString "Hello" ]})
           [VString "a"; VNumber 3] 1 (VNumber 3)); reflexivity.
Defined.

End schema_more.

(** ** The image providers, further *)

Section providers_more.
Import Ufo.

Lemma resolved_eq (r1 r2 : ResolvedImage) :
  format r1 = format r2 → url r1 = url r2 → r1 = r2.
Proof. destruct r1, r2. simpl. by intros -> ->. Qed.

(** The base the options provider joins to is never empty. *)
Lemma optionsProvider_url_base options :
  ∃ base, base ≠ ""
          ∧ ∀ segment,
              url (OptionsProvider.getImage joinURL segment options)
              = joinURL base [segment].
Proof.
  destruct (baseURL options) as [b|] eqn:Hb.
  - destruct (decide (b = "")) as [->|Hne].
    + exists DefineProvider.DEFAULT_BASE_URL. split; [done|]. intros segment.
      by rewrite optionsProvider_url, Hb.
    + exists b. split; [done|]. intros segment.
      by rewrite optionsProvider_url, Hb, decide_False.
  - exists DefineProvider.DEFAULT_BASE_URL. split; [done|]. intros segment.
    by rewrite optionsProvider_url, Hb.
Qed.

Lemma joinURL_leading_slash base segment :
  base ≠ "" → segment ≠ "" → withoutJoinLeadingSlash segment = segment →
  joinURL base ["/" +:+ segment] = joinURL base [segment]
  ∧ joinURL base ["./" +:+ segment] = joinURL base [segment].
Proof.
  intros Hbase Hne Hplain.
  assert (segment ≠ "/") by (by intros ->).
  rewrite !joinURL_kept; try done; [by rewrite Hplain|by destruct segment].
Qed.

(** X9.  With no base URL configured (none, or the empty string) the
    provider that reads [options.baseURL] answers exactly as the provider
    built with [defineProvider] does, whatever joins the segments and
    whatever options the latter is given. *)
Theorem providers_agree_without_base
    (join : string → list string → string) (src : string)
    (options options' : ImageOptions) :
  baseURL options = None ∨ baseURL options = Some "" →
  OptionsProvider.getImage join src options
  = DefineProvider.getImage join src options'.
Proof.
  intros Hbase. unfold OptionsProvider.getImage, DefineProvider.getImage.
  by destruct Hbase as [-> | ->].
Qed.

Lemma providers_agree_without_base_witness :
  OptionsProvider.getImage joinURL "octocat"
    {| baseURL := Some ""; modifiers := {[ "width" := "64" ]} |}
  = DefineProvider.getImage joinURL "octocat"
      {| baseURL := Some "https://cdn.example.com/imgs/"; modifiers := ∅ |}.
Proof.
  apply (providers_agree_without_base joinURL "octocat"
           {| baseURL := Some ""; modifiers := {[ "width" := "64" ]} |}).
  right. reflexivity.
Defined.

(** X10.  The modifiers of a request (width, height, quality, ...) never
    reach the answer: two option values with the same [baseURL] give the
    same url and format, whatever their modifiers are. *)
Theorem getImage_ignores_modifiers
    (join : string → list string → string) (src : string)
    (options1 options2 : ImageOptions) :
  baseURL options1 = baseURL options2 →
  OptionsProvider.getImage join src options1
  = OptionsProvider.getImage join src options2
  ∧ DefineProvider.getImage join src options1
    = DefineProvider.getImage join src options2.
Proof.
  intros Hbase. split; [|done].
  unfold OptionsProvider.getImage. by rewrite Hbase.
Qed.

Lemma getImage_ignores_modifiers_witness :
  OptionsProvider.getImage joinURL "octocat"
    {| baseURL := None; modifiers := {[ "width" := "64" ]} |}
  = OptionsProvider.getImage joinURL "octocat"
      {| baseURL := None; modifiers := {[ "height" := "128" ]} |}
  ∧ DefineProvider.getImage joinURL "octocat"
      {| baseURL := None; modifiers := {[ "width" := "64" ]} |}
    = DefineProvider.getImage joinURL "octocat"
        {| baseURL := None; modifiers := {[ "height" := "128" ]} |}.
Proof.
  apply (getImage_ignores_modifiers joinURL "octocat"
           {| baseURL := None; modifiers := {[ "width" := "64" ]} |}
           {| baseURL := None; modifiers := {[ "height" := "128" ]} |}).
  reflexivity.
Defined.

(** X11.  An identifier that is empty, or only a slash, yields the base
    itself, with nothing added: the default base, or the override exactly
    as it was given (no slash is put after it). *)
Theorem getImage_empty_identifier (src : string) (mods : gmap string string) :
  src = "" ∨ src = "/" →
  (∀ override,
     url (DefineProvider.getImage joinURL src
            {| baseURL := override; modifiers := mods |})
     = "https://avatars.githubusercontent.com/u/")
  ∧ (∀ b, b ≠ "" →
       url (OptionsProvider.getImage joinURL src
              {| baseURL := Some b; modifiers := mods |}) = b)
  ∧ url (OptionsProvider.getImage joinURL src
           {| baseURL := None; modifiers := mods |})
    = "https://avatars.githubusercontent.com/u/".
Proof.
  intros Hsrc. split; [|split].
  - intros override. cbn [DefineProvider.getImage url].
    by rewrite joinURL_skipped.
  - intros b Hb. rewrite optionsProvider_url. cbn [baseURL].
    by rewrite decide_False, joinURL_skipped.
  - rewrite optionsProvider_url. cbn [baseURL]. by rewrite joinURL_skipped.
Qed.

Lemma getImage_empty_identifier_witness :
  url (OptionsProvider.getImage joinURL ""
         {| baseURL := Some "https://cdn.example.com/imgs"; modifiers := ∅ |})
  = "https://cdn.example.com/imgs".
Proof.
  apply (proj1 (proj2 (getImage_empty_identifier "" ∅ (or_introl eq_refl)))).
  discriminate.
Defined.

(** X12.  A leading [/] or [./] on the identifier makes no difference: for
    an identifier that is not empty and does not itself start with [/] or
    [./], both providers answer the same with the identifier written
    [/id], [./id] or [id]. *)
Theorem getImage_leading_slash (src : string) (options : ImageOptions) :
  src ≠ "" →
  withoutJoinLeadingSlash src = src →
  DefineProvider.getImage joinURL ("/" +:+ src) options
  = DefineProvider.getImage joinURL src options
  ∧ DefineProvider.getImage joinURL ("./" +:+ src) options
    = DefineProvider.getImage joinURL src options
  ∧ OptionsProvider.getImage joinURL ("/" +:+ src) options
    = OptionsProvider.getImage joinURL src options
  ∧ OptionsProvider.getImage joinURL ("./" +:+ src) options
    = OptionsProvider.getImage joinURL src options.
Proof.
  intros Hne Hplain.
  destruct (joinURL_leading_slash DefineProvider.DEFAULT_BASE_URL src)
    as [Hd1 Hd2]; [done..|].
  destruct (optionsProvider_url_base options) as (base & Hbase & Hurl).
  destruct (joinURL_leading_slash base src) as [Ho1 Ho2]; [done..|].
  repeat split; apply resolved_eq; try done.
  - by rewrite !Hurl.
  - by rewrite !Hurl.
Qed.

Lemma getImage_leading_slash_witness :
  DefineProvider.getImage joinURL "/octocat" {| baseURL := None; modifiers := ∅ |}
  = DefineProvider.getImage joinURL "octocat" {| baseURL := None; modifiers := ∅ |}
  ∧ DefineProvider.getImage joinURL "./octocat"
      {| baseURL := None; modifiers := ∅ |}
    = DefineProvider.getImage joinURL "octocat"
        {| baseURL := None; modifiers := ∅ |}
  ∧ OptionsProvider.getImage joinURL "/octocat"
      {| baseURL := None; modifiers := ∅ |}
    = OptionsProvider.getImage joinURL "octocat"
        {| baseURL := None; modifiers := ∅ |}
  ∧ OptionsProvider.getImage joinURL "./octocat"
      {| baseURL := None; modifiers := ∅ |}
    = OptionsProvider.getImage joinURL "octocat"
        {| baseURL := None; modifiers := ∅ |}.
Proof.
  apply (getImage_leading_slash "octocat" {| baseURL := None; modifiers := ∅ |});
    [discriminate|reflexivity].
Defined.

(** X13.  A slash at the end of the override makes no difference either,
    as long as there is an identifier to join: an override that does not
    end with a slash and the same override followed by one give the same
    answer. *)
Theorem optionsProvider_trailing_slash (src b : string)
    (mods : gmap string string) :
  b ≠ "" →
  endsWithSlash b = false →
  src ≠ "" →
  src ≠ "/" →
  OptionsProvider.getImage joinURL src
    {| baseURL := Some (b +:+ "/"); modifiers := mods |}
  = OptionsProvider.getImage joinURL src
      {| baseURL := Some b; modifiers := mods |}.
Proof.
  intros Hb Hends H1 H2. apply resolved_eq; [done|].
  assert (b +:+ "/" ≠ "") by (by destruct b).
  rewrite !optionsProvider_url. cbn [baseURL]. rewrite !decide_False by done.
  rewrite !joinURL_kept by done. unfold withTrailingSlash.
  by rewrite endsWithSlash_append_slash, Hends.
Qed.

Lemma optionsProvider_trailing_slash_witness :
  OptionsProvider.getImage joinURL "octocat"
    {| baseURL := Some "https://cdn.example.com/imgs/"; modifiers := ∅ |}
  = OptionsProvider.getImage joinURL "octocat"
      {| baseURL := Some "https://cdn.example.com/imgs"; modifiers := ∅ |}.
Proof.
  apply (optionsProvider_trailing_slash "octocat" "https://cdn.example.com/imgs" ∅);
    (discriminate || reflexivity).
Defined.

End providers_more.

(** ** The plugin *)

Section plugin_facts.
Context {Component : Type} (NuxtLink NuxtImg : Component).

(** X14.  After the plugin has run, the name [NuxtLink] resolves to the
    link component and [NuxtImg] to the image component, whatever was
    registered under these names before, and every other name resolves as
    it did. *)
Theorem plugin_lookup (components : gmap string Component) (name : string) :
  Plugin.plugin Component NuxtLink NuxtImg components !! name
  = if decide (name = "NuxtLink") then Some NuxtLink
    else if decide (name = "NuxtImg") then Some NuxtImg
    else components !! name.
Proof.
  unfold Plugin.plugin, Plugin.component.
  destruct (decide (name = "NuxtLink")) as [->|Hlink].
  - by rewrite lookup_insert_ne, lookup_insert_eq.
  - destruct (decide (name = "NuxtImg")) as [->|Himg].
    + by rewrite lookup_insert_eq.
    + by rewrite !lookup_insert_ne.
Qed.

(** X15.  Running the plugin a second time changes nothing, the order of
    its two registrations does not matter, and it registers these two
    names and no other. *)
Theorem plugin_idempotent (components : gmap string Component) :
  Plugin.plugin Component NuxtLink NuxtImg
    (Plugin.plugin Component NuxtLink NuxtImg components)
  = Plugin.plugin Component NuxtLink NuxtImg components
  ∧ Plugin.component Component "NuxtLink" NuxtLink
      (Plugin.component Component "NuxtImg" NuxtImg components)
    = Plugin.plugin Component NuxtLink NuxtImg components
  ∧ dom (Plugin.plugin Component NuxtLink NuxtImg components)
    = {[ "NuxtLink"; "NuxtImg" ]} ∪ dom components.
Proof.
  unfold Plugin.plugin, Plugin.component. split; [|split].
  - apply map_eq. intros name.
    destruct (decide (name = "NuxtImg")) as [->|Himg];
      [by rewrite !lookup_insert_eq|].
    rewrite !(lookup_insert_ne _ "NuxtImg") by done.
    destruct (decide (name = "NuxtLink")) as [->|Hlink];
      [by rewrite !lookup_insert_eq|].
    by rewrite !lookup_insert_ne.
  - by apply insert_insert_ne.
  - rewrite !dom_insert_L. apply set_eq. intros name.
    rewrite !elem_of_union, !elem_of_singleton. tauto.
Qed.

End plugin_facts.

(** ** The error registry, further *)

(** X16.  Every exported error carries an HTTP error status (400 to 599), a
    status message that is set, and the same text as its message; no two of
    them carry the same pair of status code and status message, although
    [ErrBadRequest] and [ErrNoParamId] share the code 400, so the code
    alone does not tell the errors apart. *)
Theorem exports_are_distinct_http_errors :
  Forall (λ named,
            (400 ≤ H3.statusCode named.2 < 600)%Z
            ∧ H3.statusMessage named.2 = Some (H3.message named.2)
            ∧ H3.message named.2 ≠ "")
         Errors.exports
  ∧ NoDup (Errors.status <$> Errors.exports.*2)
  ∧ ¬ NoDup (H3.statusCode <$> Errors.exports.*2).
Proof.
  split; [|split].
  - unfold Errors.exports. repeat constructor; done.
  - apply (bool_decide_unpack _). by vm_compute.
  - intros Hdup. apply (bool_decide_pack (NoDup _)) in Hdup. by vm_compute in Hdup.
Qed.
